(** * Product matcher of ProductVoiceCode

    Shallow embedding of [src/hooks/useProductMatcher.ts] in its two
    versions: the array-returning matcher with Hebrew singular/plural
    variations (canonical) and the older single-record matcher (legacy),
    of the first matcher built on a [Map] of cleaned names, and of the
    screen state of [App.tsx] that calls the matcher.

    JavaScript strings are sequences of UTF-16 code units, modelled as
    [list Z]; every operation used by the matcher ([trim], [replace],
    [toLowerCase], [includes], [endsWith], [slice], [===]) is written out
    on these code units. *)

From Stdlib Require Import String Ascii.
From Stdlib Require Import ZArith List Bool Lia Permutation Sorting.Sorted.
From Stdlib Require Import Numbers.DecimalString.
Import ListNotations.
Open Scope Z_scope.

(** ** Strings *)

Definition jsstring := list Z.

(** ASCII literals, converted to their code units. *)
Definition js (s : string) : jsstring :=
  map (fun a => Z.of_nat (nat_of_ascii a)) (list_ascii_of_string s).

(** [a === b] on strings. *)
Definition str_eqb (a b : jsstring) : bool :=
  if list_eq_dec Z.eq_dec a b then true else false.

(** [s.startsWith(pre)] *)
Fixpoint startsWith (s pre : jsstring) : bool :=
  match pre, s with
  | [], _ => true
  | c :: pre', d :: s' => (c =? d) && startsWith s' pre'
  | _ :: _, [] => false
  end.

(** [s.includes(needle)]: [needle] occurs at some position of [s]. *)
Fixpoint includes (s needle : jsstring) : bool :=
  startsWith s needle ||
  match s with
  | [] => false
  | _ :: s' => includes s' needle
  end.

(** [s.endsWith(suf)] *)
Definition endsWith (s suf : jsstring) : bool :=
  (length suf <=? length s)%nat && str_eqb (skipn (length s - length suf) s) suf.

(** [s.slice(0, -k)]: all but the last [k] code units ([""] when [s] is
    shorter than [k]). *)
Definition slice_drop_end (s : jsstring) (k : nat) : jsstring :=
  firstn (length s - k) s.

(** ** normalizeHebrew *)

(** The code units removed by [String.prototype.trim]: WhiteSpace and
    LineTerminator of ECMA-262. *)
Definition is_js_whitespace (c : Z) : bool :=
  ((9 <=? c) && (c <=? 13)) || (c =? 32) || (c =? 160) || (c =? 5760)
  || ((8192 <=? c) && (c <=? 8202)) || (c =? 8232) || (c =? 8233)
  || (c =? 8239) || (c =? 8287) || (c =? 12288) || (c =? 65279).

Fixpoint drop_leading_ws (s : jsstring) : jsstring :=
  match s with
  | c :: s' => if is_js_whitespace c then drop_leading_ws s' else s
  | [] => []
  end.

(** [s.trim()] *)
Definition trim (s : jsstring) : jsstring :=
  rev (drop_leading_ws (rev (drop_leading_ws s))).

(** Hebrew letters used by the matcher. *)
Definition YOD : Z := 1497.        (* U+05D9 *)
Definition VAV : Z := 1493.        (* U+05D5 *)
Definition TAV : Z := 1514.        (* U+05EA *)
Definition HE : Z := 1492.         (* U+05D4 *)
Definition FINAL_MEM : Z := 1501.  (* U+05DD *)

(** [s.replace(/יי/g, 'י')]: matches are found left to right and do not
    overlap, so a run of three yods becomes two. *)
Fixpoint replace_double_yod (s : jsstring) : jsstring :=
  match s with
  | a :: ((b :: t) as r) =>
      if (a =? YOD) && (b =? YOD) then YOD :: replace_double_yod t
      else a :: replace_double_yod r
  | _ => s
  end.

(** The character class [[.,\/#!$%\^&\*;:{}=\-_`~()]]. *)
Definition punctuation : list Z :=
  [46; 44; 47; 35; 33; 36; 37; 94; 38; 42; 59; 58; 123; 125; 61; 45; 95; 96;
   126; 40; 41].

Definition is_punct (c : Z) : bool := existsb (Z.eqb c) punctuation.

(** [s.replace(/[.,\/#!$%\^&\*;:{}=\-_`~()]/g, '')] *)
Definition remove_punctuation (s : jsstring) : jsstring :=
  filter (fun c => negb (is_punct c)) s.

(** [toLowerCase] on one code unit: the one-to-one part of the Unicode
    lowercase mapping for Basic Latin, Latin-1 and Cyrillic capitals;
    every other code unit is unchanged (Hebrew letters, digits, spaces and
    punctuation have no case).  Other cased scripts (Greek and its
    context-dependent final sigma among them) and the length-changing
    mappings are not modelled, so this agrees with JavaScript on strings
    of Basic Latin, Latin-1, basic Cyrillic and Hebrew code units. *)
Definition lower_unit (c : Z) : Z :=
  if (65 <=? c) && (c <=? 90) then c + 32
  else if ((192 <=? c) && (c <=? 214)) || ((216 <=? c) && (c <=? 222)) then c + 32
  else if (1024 <=? c) && (c <=? 1039) then c + 80
  else if (1040 <=? c) && (c <=? 1071) then c + 32
  else c.

(** [s.toLowerCase()] *)
Definition toLowerCase (s : jsstring) : jsstring := map lower_unit s.

(** [normalizeHebrew] (same body in both versions of the file). *)
Definition normalizeHebrew (text : jsstring) : jsstring :=
  toLowerCase (remove_punctuation (replace_double_yod (trim text))).

(** ** getHebrewVariations *)

(** [set.add(x)] on a JavaScript [Set] kept as its insertion-ordered list
    of members: a new member goes to the end, an old one stays put. *)
Definition set_add (x : jsstring) (s : list jsstring) : list jsstring :=
  if existsb (str_eqb x) s then s else s ++ [x].

Definition SUFFIX_OT : jsstring := [VAV; TAV].        (* 'ות' *)
Definition SUFFIX_AH : jsstring := [HE].              (* 'ה' *)
Definition SUFFIX_IM : jsstring := [YOD; FINAL_MEM].  (* 'ים' *)

(** [Array.from(variations)] at the end of [getHebrewVariations]. *)
Definition getHebrewVariations (text : jsstring) : list jsstring :=
  let variations := [text] in
  let variations :=
    if endsWith text SUFFIX_OT then
      set_add (slice_drop_end text 2)
        (set_add (slice_drop_end text 2 ++ SUFFIX_AH) variations)
    else if endsWith text SUFFIX_AH then
      set_add (slice_drop_end text 1 ++ SUFFIX_OT) variations
    else variations in
  if endsWith text SUFFIX_IM then set_add (slice_drop_end text 2) variations
  else set_add (text ++ SUFFIX_IM) variations.

(** ** Catalog *)

Record Product := mkProduct { name : jsstring; id : jsstring }.

(** [[...productData].sort((a, b) => b.name.length - a.name.length)]:
    [Array.prototype.sort] is stable, so records of equal [name.length]
    keep their catalog order.  Written as a stable insertion sort. *)
Fixpoint insert_by_length (p : Product) (l : list Product) : list Product :=
  match l with
  | [] => [p]
  | q :: l' =>
      if (length (name q) <=? length (name p))%nat then p :: l
      else q :: insert_by_length p l'
  end.

Fixpoint sort_by_length_desc (l : list Product) : list Product :=
  match l with
  | [] => []
  | p :: l' => insert_by_length p (sort_by_length_desc l')
  end.

(** [sortedProducts] puts [a] before [b] only if [a.name] is at least as
    long as [b.name]. *)
Definition longer_or_equal (a b : Product) : Prop := (length (name b) <= length (name a))%nat.

Section Matcher.

(** The imported [products.json], read-only. *)
Variable productData : list Product.

Definition sortedProducts : list Product := sort_by_length_desc productData.

(** PHASE 1: for each variation, [productData.find] of a record whose
    normalized name is that variation; the first hit is returned. *)
Fixpoint exact_phase (variations : list jsstring) : option Product :=
  match variations with
  | [] => None
  | v :: vs =>
      match find (fun p => str_eqb (normalizeHebrew (name p)) v) productData with
      | Some p => Some p
      | None => exact_phase vs
      end
  end.

(** PHASE 2: the first record of [sortedProducts] whose normalized name is
    included in one of the variations. *)
Definition partial_phase (variations : list jsstring) : option Product :=
  find (fun product =>
          let cleanProductName := normalizeHebrew (name product) in
          existsb (fun variation => includes variation cleanProductName) variations)
       sortedProducts.

(** PHASE 3: [categoryMatches] accumulated over the variations. *)
Definition category_matches (variations : list jsstring) : list Product :=
  fold_left
    (fun categoryMatches variation =>
       categoryMatches ++
       filter (fun product => includes (normalizeHebrew (name product)) variation)
              productData)
    variations [].

(** [Array.from(new Set(ids))] *)
Definition dedup (xs : list jsstring) : list jsstring :=
  fold_left (fun acc x => set_add x acc) xs [].

(** [categoryMatches.find(p => p.id === id)] *)
Definition find_by_id (categoryMatches : list Product) (i : jsstring) : option Product :=
  find (fun p => str_eqb (id p) i) categoryMatches.

(** [uniqueMatches]; the non-null assertion [!] always holds
    (lemma [find_by_id_dedup] below), so no entry is dropped. *)
Definition uniqueMatches (categoryMatches : list Product) : list Product :=
  flat_map (fun i => match find_by_id categoryMatches i with
                     | Some p => [p]
                     | None => []
                     end)
           (dedup (map id categoryMatches)).

(** [findProduct] of the canonical matcher; [None] is [null]. *)
Definition findProduct (transcript : jsstring) : option (list Product) :=
  match transcript with
  | [] => None
  | _ =>
      let cleanTranscript := normalizeHebrew transcript in
      let transcriptVariations := getHebrewVariations cleanTranscript in
      match exact_phase transcriptVariations with
      | Some p => Some [p]
      | None =>
          match partial_phase transcriptVariations with
          | Some p => Some [p]
          | None =>
              let u := uniqueMatches (category_matches transcriptVariations) in
              if (0 <? length u)%nat then Some u else None
          end
      end
  end.

(** [findProduct] of the legacy matcher, returning one record or [null]. *)
Definition legacy_findProduct (transcript : jsstring) : option Product :=
  match transcript with
  | [] => None
  | _ =>
      let cleanTranscript := normalizeHebrew transcript in
      match find (fun p => str_eqb (normalizeHebrew (name p)) cleanTranscript)
                 productData with
      | Some p => Some p
      | None =>
          find (fun product => includes cleanTranscript (normalizeHebrew (name product)))
               sortedProducts
      end
  end.

End Matcher.

(** ** Concrete catalogs *)

Definition onion : Product := mkProduct (js "Onion") (js "1").
Definition red_onion : Product := mkProduct (js "Red Onion") (js "2").
Definition onion_catalog : list Product := [onion; red_onion].
Definition onion_rings : Product := mkProduct (js "Onion Rings") (js "3").
Definition onion_family : list Product := [red_onion; onion_rings].

(** 'עגבניות שרי' (cherry tomatoes) and 'עגבניה' (tomato). *)
Definition cherry_tomatoes_name : jsstring :=
  [1506; 1490; 1489; 1504; 1497; VAV; TAV; 32; 1513; 1512; YOD].
Definition tomato_singular : jsstring := [1506; 1490; 1489; 1504; 1497; HE].
Definition cherry_tomatoes : Product := mkProduct cherry_tomatoes_name (js "9").
Definition cherry_catalog : list Product := [cherry_tomatoes].

(** 'עגבניות' (tomatoes). *)
Definition tomatoes_plural : jsstring := [1506; 1490; 1489; 1504; 1497; VAV; TAV].

(** A catalog whose raw name lengths and normalized name lengths are
    ordered differently. *)
Definition onion_dots : Product := mkProduct (js "Onion...") (js "a").
Definition onions : Product := mkProduct (js "Onions") (js "b").
Definition dots_catalog : list Product := [onion_dots; onions].

(** ** The first matcher: a [Map] from cleaned names *)

(** [productMap.set(k, v)] and [productMap.get(k)] on a JavaScript [Map]
    kept as its list of entries; [set] on a present key replaces the value
    in place. *)
Fixpoint map_set (k : jsstring) (v : Product) (m : list (jsstring * Product))
  : list (jsstring * Product) :=
  match m with
  | [] => [(k, v)]
  | (k', v') :: m' => if str_eqb k k' then (k, v) :: m' else (k', v') :: map_set k v m'
  end.

Fixpoint map_get (k : jsstring) (m : list (jsstring * Product)) : option Product :=
  match m with
  | [] => None
  | (k', v) :: m' => if str_eqb k k' then Some v else map_get k m'
  end.

(** [s.trim().toLowerCase()] *)
Definition map_key (s : jsstring) : jsstring := toLowerCase (trim s).

(** [productData.forEach(product => productMap.set(...))] *)
Definition productMap (productData : list Product) : list (jsstring * Product) :=
  fold_left (fun m product => map_set (map_key (name product)) product m) productData [].

(** [findProduct] of the [Map] version: [productMap.get(cleanTranscript) || null]
    (a record object is never falsy). *)
Definition map_findProduct (productData : list Product) (transcript : jsstring)
  : option Product :=
  map_get (map_key transcript) (productMap productData).

(** ** The screen: [App.tsx] *)

(** [VoiceState.foundProduct : Product | Product[] | null | 'not_found'];
    [App.tsx] only stores arrays or ['not_found'] into it. *)
Inductive FoundProduct :=
| FoundNull
| FoundNotFound
| FoundOne (p : Product)
| FoundMany (ps : list Product).

Record VoiceState := mkVoiceState {
  isListening : bool;
  partialTranscript : jsstring;
  finalTranscript : jsstring;
  error : jsstring;
  foundProduct : FoundProduct }.

Definition initialState : VoiceState := mkVoiceState false [] [] [] FoundNull.

Definition MSG_UNKNOWN_ERROR : jsstring :=      (* 'שגיאה לא ידועה' *)
  [1513; 1490; 1497; 1488; 1492; 32; 1500; 1488; 32; 1497; 1491; 1493; 1506; 1492].
Definition MSG_NOT_HEARD : jsstring :=          (* 'לא שמעתי, נסה שוב' *)
  [1500; 1488; 32; 1513; 1502; 1506; 1514; 1497; 44; 32; 1504; 1505; 1492; 32; 1513;
   1493; 1489].
Definition MSG_NO_PERMISSION : jsstring :=      (* 'אין הרשאה לשימוש במיקרופון' *)
  [1488; 1497; 1503; 32; 1492; 1512; 1513; 1488; 1492; 32; 1500; 1513; 1497; 1502; 1493;
   1513; 32; 1489; 1502; 1497; 1511; 1512; 1493; 1508; 1493; 1503].
Definition MSG_FOUND_PREFIX : jsstring := [1504; 1502; 1510; 1488; 58; 32].  (* 'נמצא: ' *)
Definition MSG_FOUND_MANY : jsstring := [1504; 1502; 1510; 1488; 1493; 32].  (* 'נמצאו ' *)
Definition MSG_PRODUCTS : jsstring := [32; 1502; 1493; 1510; 1512; 1497; 1501]. (* ' מוצרים' *)
Definition MSG_PRODUCT_NOT_FOUND : jsstring :=  (* 'מוצר לא נמצא' *)
  [1502; 1493; 1510; 1512; 32; 1500; 1488; 32; 1504; 1502; 1510; 1488].
Definition MSG_RESULTS : jsstring := [32; 1514; 1493; 1510; 1488; 1493; 1514; 58]. (* ' תוצאות:' *)
Definition MSG_ONE_PRODUCT : jsstring :=        (* 'נמצא מוצר אחד:' *)
  [1504; 1502; 1510; 1488; 32; 1502; 1493; 1510; 1512; 32; 1488; 1495; 1491; 58].

(** [`${n}`] for a count. *)
Definition nat_to_jsstring (n : nat) : jsstring :=
  js (NilEmpty.string_of_uint (Nat.to_uint n)).

(** [e.value?.[0] || '']: the best transcript of a results event. *)
Definition first_value (value : option (list jsstring)) : jsstring :=
  match value with
  | Some (x :: _) => x
  | _ => []
  end.

(** The [errorMessage] computed by [onSpeechError] from [e.error?.message]. *)
Definition speechErrorMessage (message : option jsstring) : jsstring :=
  match message with
  | Some m =>
      match m with
      | [] => MSG_UNKNOWN_ERROR
      | _ => if includes m (js "7") || includes m (js "No match") then MSG_NOT_HEARD else m
      end
  | None => MSG_UNKNOWN_ERROR
  end.

Definition onSpeechStart (prev : VoiceState) : VoiceState :=
  mkVoiceState true (partialTranscript prev) (finalTranscript prev) [] (foundProduct prev).

Definition onSpeechEnd (prev : VoiceState) : VoiceState :=
  mkVoiceState false (partialTranscript prev) (finalTranscript prev) (error prev)
    (foundProduct prev).

Definition onSpeechError (message : option jsstring) (prev : VoiceState) : VoiceState :=
  mkVoiceState false (partialTranscript prev) (finalTranscript prev)
    (speechErrorMessage message) (foundProduct prev).

Definition onSpeechPartialResults (value : option (list jsstring)) (prev : VoiceState)
  : VoiceState :=
  mkVoiceState (isListening prev) (first_value value) (finalTranscript prev) (error prev)
    (foundProduct prev).

(** [products || 'not_found'] *)
Definition found_of (products : option (list Product)) : FoundProduct :=
  match products with
  | Some ps => FoundMany ps
  | None => FoundNotFound
  end.

(** The state update of [onSpeechResults], with the catalog's matcher. *)
Definition onSpeechResults (productData : list Product) (value : option (list jsstring))
  (prev : VoiceState) : VoiceState :=
  let transcript := first_value value in
  mkVoiceState false [] transcript (error prev) (found_of (findProduct productData transcript)).

(** The text [onSpeechResults] announces for accessibility. *)
Definition resultAnnouncement (products : option (list Product)) : jsstring :=
  match products with
  | Some ps =>
      match ps with
      | [] => MSG_PRODUCT_NOT_FOUND
      | [p] => MSG_FOUND_PREFIX ++ name p
      | _ => MSG_FOUND_MANY ++ nat_to_jsstring (length ps) ++ MSG_PRODUCTS
      end
  | None => MSG_PRODUCT_NOT_FOUND
  end.

(** [toggleListening], with the outcomes of its awaited calls as inputs:
    [Voice.stop()] when listening; otherwise the permission answer
    ([requestAudioPermission], [false] also when the request throws),
    [Voice.destroy()] and [Voice.start('he-IL')].  [Some m] is a call that
    throws an error with message [m], caught by the [catch] block. *)
Definition toggleListening (stopErr : option jsstring) (granted : bool)
  (destroyErr startErr : option jsstring) (s : VoiceState) : VoiceState :=
  if isListening s then
    match stopErr with
    | None => mkVoiceState false (partialTranscript s) (finalTranscript s) (error s)
                (foundProduct s)
    | Some m => mkVoiceState false (partialTranscript s) (finalTranscript s) m
                  (foundProduct s)
    end
  else if negb granted then
    mkVoiceState (isListening s) (partialTranscript s) (finalTranscript s)
      MSG_NO_PERMISSION (foundProduct s)
  else
    match destroyErr with
    | Some m => mkVoiceState false (partialTranscript s) (finalTranscript s) m
                  (foundProduct s)
    | None =>
        let reset := mkVoiceState true [] [] [] FoundNull in
        match startErr with
        | None => reset
        | Some m => mkVoiceState false [] [] m FoundNull
        end
    end.

(** The events the screen reacts to: the speech engine's callbacks and a
    press of the microphone button. *)
Inductive event :=
| EvSpeechStart
| EvSpeechEnd
| EvSpeechError (message : option jsstring)
| EvSpeechResults (value : option (list jsstring))
| EvSpeechPartialResults (value : option (list jsstring))
| EvToggle (stopErr : option jsstring) (granted : bool) (destroyErr startErr : option jsstring).

Definition step (productData : list Product) (s : VoiceState) (e : event) : VoiceState :=
  match e with
  | EvSpeechStart => onSpeechStart s
  | EvSpeechEnd => onSpeechEnd s
  | EvSpeechError m => onSpeechError m s
  | EvSpeechResults v => onSpeechResults productData v s
  | EvSpeechPartialResults v => onSpeechPartialResults v s
  | EvToggle a b c d => toggleListening a b c d s
  end.

Definition run (productData : list Product) (events : list event) : VoiceState :=
  fold_left (step productData) events initialState.

(** What [renderProductResult] shows. *)
Inductive Rendered :=
| RenderNothing
| RenderNotFound (heard : jsstring)
| RenderList (header : jsstring) (products : list Product).

Definition renderProductResult (s : VoiceState) : Rendered :=
  match foundProduct s with
  | FoundNull => RenderNothing
  | FoundNotFound => RenderNotFound (finalTranscript s)
  | FoundOne p => RenderList MSG_ONE_PRODUCT [p]
  | FoundMany ps =>
      RenderList (if (1 <? length ps)%nat
                  then MSG_FOUND_MANY ++ nat_to_jsstring (length ps) ++ MSG_RESULTS
                  else MSG_ONE_PRODUCT) ps
  end.

(** [foundProduct] as [App.tsx] can leave it. *)
Definition result_ok (productData : list Product) (f : FoundProduct) : Prop :=
  match f with
  | FoundNull | FoundNotFound => True
  | FoundOne _ => False
  | FoundMany ps => ps <> [] /\ NoDup (map id ps) /\ incl ps productData
  end.

Definition is_results_event (e : event) : bool :=
  match e with EvSpeechResults _ => true | _ => false end.

(** The catalog mocked by the matcher's test file. *)
Definition spanner_catalog : list Product :=
  [mkProduct (js "Classic Widget") (js "W-001"); mkProduct (js "Mega Gadget") (js "G-1024");
   mkProduct (js "Super Spanner") (js "S-SPAN-01")].

(** A session: the button starts listening, the engine hears "onion". *)
Definition session_onion : list event :=
  [EvToggle None true None None; EvSpeechStart; EvSpeechResults (Some [js "onion"])].

(** The test of the contained-phrase tier: some variation includes the
    record's normalized name (the predicate [partial_phase] passes to
    [find]). *)
Definition matches_some_variation (variations : list jsstring) (p : Product) : bool :=
  existsb (fun variation => includes variation (normalizeHebrew (name p))) variations.

(** [q] is the first record satisfying [f] in the order of a stable sort
    by decreasing raw name length: it satisfies [f], no record before it
    in [l] with a name at least as long does, and no record after it in
    [l] with a strictly longer name does. *)
Definition first_longest (f : Product -> bool) (l : list Product) (q : Product) : Prop :=
  f q = true /\
  exists pre post, l = pre ++ q :: post /\
    (forall r, In r pre -> (length (name q) <= length (name r))%nat -> f r = false) /\
    (forall r, In r post -> (length (name q) < length (name r))%nat -> f r = false).

(** Code units of Basic Latin or of the Hebrew block, on which
    [lower_unit] is exactly the JavaScript lowercase mapping. *)
Definition ascii_or_hebrew (c : Z) : bool :=
  ((0 <=? c) && (c <=? 127)) || ((1424 <=? c) && (c <=? 1535)).

(** ** Facts about the string and set operations *)

Lemma str_eqb_true a b : str_eqb a b = true <-> a = b.
Proof. unfold str_eqb. destruct (list_eq_dec Z.eq_dec a b); split; congruence. Qed.

Lemma str_eqb_refl a : str_eqb a a = true.
Proof. apply str_eqb_true. reflexivity. Qed.

Lemma set_add_In x y s : In y (set_add x s) <-> In y s \/ y = x.
Proof.
  unfold set_add. destruct (existsb (str_eqb x) s) eqn:E.
  - apply existsb_exists in E as [z [Hz Hxz]]. apply str_eqb_true in Hxz.
    subst z. split; [tauto|]. intros [H|H]; [exact H|subst; exact Hz].
  - rewrite in_app_iff. simpl. split; intros [H|H]; intuition.
Qed.

Lemma set_add_head x s a :
  (exists r, s = a :: r) -> exists r, set_add x s = a :: r.
Proof.
  intros [r ->]. unfold set_add. destruct (existsb _ _).
  - eauto.
  - exists (r ++ [x]). reflexivity.
Qed.

(** The input key is always the first member of the variation set. *)
Lemma variations_head text : exists rest, getHebrewVariations text = text :: rest.
Proof.
  unfold getHebrewVariations.
  destruct (endsWith text SUFFIX_OT), (endsWith text SUFFIX_AH), (endsWith text SUFFIX_IM);
    repeat apply set_add_head; eauto.
Qed.

Lemma NoDup_map_inj {A B} (f : A -> B) l x y :
  NoDup (map f l) -> In x l -> In y l -> f x = f y -> x = y.
Proof.
  induction l as [|a l IH]; simpl; intros Hnd Hx Hy Hf; [contradiction|].
  inversion Hnd as [|? ? Hna Hnd']; subst.
  destruct Hx as [<-|Hx], Hy as [<-|Hy]; auto.
  - exfalso. apply Hna. rewrite Hf. apply in_map. exact Hy.
  - exfalso. apply Hna. rewrite <- Hf. apply in_map. exact Hx.
Qed.

Section MatcherFacts.

Variable productData : list Product.

Lemma findProduct_unfold t :
  t <> [] ->
  findProduct productData t =
  (let transcriptVariations := getHebrewVariations (normalizeHebrew t) in
   match exact_phase productData transcriptVariations with
   | Some p => Some [p]
   | None =>
       match partial_phase productData transcriptVariations with
       | Some p => Some [p]
       | None =>
           let u := uniqueMatches (category_matches productData transcriptVariations) in
           if (0 <? length u)%nat then Some u else None
       end
   end).
Proof. destruct t; [congruence | reflexivity]. Qed.

Lemma exact_phase_some vars q :
  exact_phase productData vars = Some q ->
  In q productData /\ In (normalizeHebrew (name q)) vars.
Proof.
  induction vars as [|v vs IH]; simpl; [discriminate|].
  destruct (find _ productData) eqn:E.
  - intros [= <-]. apply find_some in E as [Hin Heq].
    apply str_eqb_true in Heq. auto.
  - intros H. destruct (IH H). auto.
Qed.

Lemma exact_phase_none vars :
  exact_phase productData vars = None <->
  (forall v p, In v vars -> In p productData -> normalizeHebrew (name p) <> v).
Proof.
  induction vars as [|v vs IH]; simpl.
  - split; [intros _ v p []|reflexivity].
  - destruct (find _ productData) eqn:E.
    + split; [discriminate|]. intros H. apply find_some in E as [Hin Heq].
      apply str_eqb_true in Heq. exfalso. exact (H v p (or_introl eq_refl) Hin Heq).
    + rewrite IH. split.
      * intros H w p [<-|Hw] Hp.
        -- intros Heq. pose proof (find_none _ _ E p Hp) as Hf. simpl in Hf.
           rewrite Heq, str_eqb_refl in Hf. discriminate.
        -- exact (H w p Hw Hp).
      * intros H w p Hw Hp. exact (H w p (or_intror Hw) Hp).
Qed.

(** [productData.find] on a key that exactly one record has. *)
Lemma find_unique_name R k :
  In R productData ->
  NoDup (map (fun p => normalizeHebrew (name p)) productData) ->
  normalizeHebrew (name R) = k ->
  find (fun p => str_eqb (normalizeHebrew (name p)) k) productData = Some R.
Proof.
  intros HR Hnd Hk.
  destruct (find _ productData) as [q|] eqn:E.
  - apply find_some in E as [Hq Heq]. apply str_eqb_true in Heq. f_equal.
    apply (NoDup_map_inj _ _ _ _ Hnd Hq HR). congruence.
  - pose proof (find_none _ _ E R HR) as Hf. simpl in Hf.
    rewrite Hk, str_eqb_refl in Hf. discriminate.
Qed.

End MatcherFacts.

(** ** Facts about normalizeHebrew *)

Lemma drop_leading_ws_len s :
  (length (drop_leading_ws s) <= length s)%nat /\
  (length (drop_leading_ws s) = length s -> drop_leading_ws s = s).
Proof.
  induction s as [|c s [IH1 IH2]]; simpl; [auto|].
  destruct (is_js_whitespace c); simpl; split; intros; try lia; auto.
Qed.

Lemma trim_len s :
  (length (trim s) <= length s)%nat /\ (length (trim s) = length s -> trim s = s).
Proof.
  unfold trim. rewrite length_rev.
  destruct (drop_leading_ws_len s) as [A1 A2].
  destruct (drop_leading_ws_len (rev (drop_leading_ws s))) as [B1 B2].
  rewrite length_rev in B1, B2. split; [lia|].
  intros H. rewrite B2 by lia. rewrite rev_involutive. apply A2. lia.
Qed.

Lemma replace_double_yod_cons2 a b t :
  replace_double_yod (a :: b :: t) =
  if (a =? YOD) && (b =? YOD) then YOD :: replace_double_yod t
  else a :: replace_double_yod (b :: t).
Proof. reflexivity. Qed.

Lemma replace_double_yod_len n : forall s, (length s <= n)%nat ->
  (length (replace_double_yod s) <= length s)%nat /\
  (length (replace_double_yod s) = length s -> replace_double_yod s = s).
Proof.
  induction n as [|n IH]; intros s Hs.
  - destruct s; simpl in *; [auto | lia].
  - destruct s as [|a [|b t]]; [simpl; auto|simpl; auto|].
    rewrite replace_double_yod_cons2.
    destruct ((a =? YOD) && (b =? YOD)).
    + destruct (IH t) as [H1 _]; simpl in Hs; [lia|]. cbn [length] in *.
      split; [lia|]. intros H. lia.
    + destruct (IH (b :: t)) as [H1 H2]; simpl in Hs; [simpl; lia|].
      cbn [length] in *. split; [lia|]. intros H. rewrite H2 by lia. reflexivity.
Qed.

Lemma remove_punctuation_len s : (length (remove_punctuation s) <= length s)%nat.
Proof. apply filter_length_le. Qed.

Lemma lower_unit_spec c :
  (65 <= c <= 90 /\ lower_unit c = c + 32) \/
  ((192 <= c <= 214 \/ 216 <= c <= 222) /\ lower_unit c = c + 32) \/
  (1024 <= c <= 1039 /\ lower_unit c = c + 80) \/
  (1040 <= c <= 1071 /\ lower_unit c = c + 32) \/
  (~ (65 <= c <= 90) /\ ~ (192 <= c <= 214) /\ ~ (216 <= c <= 222) /\
   ~ (1024 <= c <= 1071) /\ lower_unit c = c).
Proof.
  unfold lower_unit.
  repeat (match goal with |- context [Z.leb ?a ?b] => destruct (Z.leb_spec a b) end;
          simpl); lia.
Qed.

Lemma lower_unit_idem c : lower_unit (lower_unit c) = lower_unit c.
Proof.
  pose proof (lower_unit_spec c). pose proof (lower_unit_spec (lower_unit c)). lia.
Qed.

Lemma In_punctuation x : In x punctuation -> x <= 126 /\ ~ (97 <= x <= 122).
Proof. simpl. intros H. repeat destruct H as [<-|H]; try lia; try destruct H. Qed.

Lemma is_punct_In c : is_punct c = true <-> In c punctuation.
Proof.
  unfold is_punct. rewrite existsb_exists. split.
  - intros [x [Hx E]]. apply Z.eqb_eq in E. subst. exact Hx.
  - intros H. exists c. rewrite Z.eqb_refl. auto.
Qed.

Lemma lower_unit_not_punct c : is_punct c = false -> is_punct (lower_unit c) = false.
Proof.
  intros Hc. destruct (Z.eq_dec (lower_unit c) c) as [->|Hne]; [exact Hc|].
  destruct (is_punct (lower_unit c)) eqn:E; [|reflexivity].
  apply is_punct_In, In_punctuation in E.
  pose proof (lower_unit_spec c). lia.
Qed.

Lemma normalize_no_punct s c :
  In c (normalizeHebrew s) -> is_punct c = false.
Proof.
  unfold normalizeHebrew, toLowerCase, remove_punctuation.
  rewrite in_map_iff. intros [x [<- Hx]]. apply filter_In in Hx as [_ Hx].
  apply lower_unit_not_punct. destruct (is_punct x); [discriminate|reflexivity].
Qed.

Lemma normalize_lower s : toLowerCase (normalizeHebrew s) = normalizeHebrew s.
Proof.
  unfold normalizeHebrew at 1. unfold toLowerCase at 1. unfold normalizeHebrew.
  unfold toLowerCase. rewrite map_map. apply map_ext. apply lower_unit_idem.
Qed.

Lemma remove_punctuation_id s :
  (forall c, In c s -> is_punct c = false) -> remove_punctuation s = s.
Proof.
  induction s as [|c s IH]; simpl; intros H; [reflexivity|].
  rewrite (H c (or_introl eq_refl)). simpl. f_equal. auto.
Qed.

Lemma normalize_len s : (length (normalizeHebrew s) <= length (trim s))%nat.
Proof.
  unfold normalizeHebrew, toLowerCase. rewrite length_map.
  pose proof (remove_punctuation_len (replace_double_yod (trim s))).
  pose proof (proj1 (replace_double_yod_len _ (trim s) (le_n _))). lia.
Qed.

Lemma normalize_fixed n :
  trim n = n -> replace_double_yod n = n ->
  (forall c, In c n -> is_punct c = false) -> toLowerCase n = n ->
  normalizeHebrew n = n.
Proof.
  intros Ht Hy Hp Hl. unfold normalizeHebrew.
  rewrite Ht, Hy, (remove_punctuation_id n Hp). exact Hl.
Qed.

(** ** Facts about the category phase *)

Lemma set_add_NoDup x s : NoDup s -> NoDup (set_add x s).
Proof.
  unfold set_add. destruct (existsb (str_eqb x) s) eqn:E; [auto|].
  intros Hs. apply NoDup_app; [exact Hs|repeat constructor; simpl; tauto|].
  intros a Ha [Hx|[]].
  assert (existsb (str_eqb x) s = true).
  { apply existsb_exists. exists a. rewrite Hx, str_eqb_refl. auto. }
  congruence.
Qed.

Lemma dedup_fold_NoDup xs acc :
  NoDup acc -> NoDup (fold_left (fun acc x => set_add x acc) xs acc).
Proof.
  revert acc. induction xs as [|x xs IH]; simpl; intros acc H; auto using set_add_NoDup.
Qed.

Lemma dedup_fold_In xs acc y :
  In y (fold_left (fun acc x => set_add x acc) xs acc) <-> In y acc \/ In y xs.
Proof.
  revert acc. induction xs as [|x xs IH]; simpl; intros acc; [tauto|].
  rewrite IH, set_add_In. intuition.
Qed.

Lemma dedup_NoDup xs : NoDup (dedup xs).
Proof. apply dedup_fold_NoDup. constructor. Qed.

Lemma dedup_In xs y : In y (dedup xs) <-> In y xs.
Proof. unfold dedup. rewrite dedup_fold_In. simpl. tauto. Qed.

Lemma find_by_id_some cm i p :
  find_by_id cm i = Some p -> id p = i /\ In p cm.
Proof.
  unfold find_by_id. intros E. apply find_some in E as [Hin Heq].
  apply str_eqb_true in Heq. auto.
Qed.

(** The non-null assertion [categoryMatches.find(p => p.id === id)!]
    always holds: every id of [uniqueMatches] comes from [categoryMatches]. *)
Lemma find_by_id_dedup cm i :
  In i (dedup (map id cm)) -> exists p, find_by_id cm i = Some p.
Proof.
  rewrite dedup_In, in_map_iff. intros [q [<- Hq]].
  unfold find_by_id. destruct (find _ cm) as [p|] eqn:E; [eauto|].
  pose proof (find_none _ _ E q Hq) as Hf. simpl in Hf.
  rewrite str_eqb_refl in Hf. discriminate.
Qed.

Lemma uniqueMatches_ids_NoDup cm : NoDup (map id (uniqueMatches cm)).
Proof.
  unfold uniqueMatches.
  assert (G : forall ids, NoDup ids ->
            (forall x, In x (map id (flat_map (fun i => match find_by_id cm i with
                                                        | Some p => [p] | None => [] end) ids))
                       -> In x ids) /\
            NoDup (map id (flat_map (fun i => match find_by_id cm i with
                                              | Some p => [p] | None => [] end) ids))).
  { induction ids as [|i ids IH]; simpl; intros Hnd.
    - split; [tauto|constructor].
    - inversion Hnd as [|? ? Hi Hnd']; subst. destruct (IH Hnd') as [IH1 IH2].
      destruct (find_by_id cm i) as [p|] eqn:E; simpl.
      + apply find_by_id_some in E as [Hp _]. rewrite Hp. split.
        * intros x [<-|Hx]; auto.
        * constructor; auto.
      + split; auto. }
  apply G, dedup_NoDup.
Qed.

Lemma uniqueMatches_In cm p : In p (uniqueMatches cm) -> In p cm.
Proof.
  unfold uniqueMatches. rewrite in_flat_map. intros [i [_ Hi]].
  destruct (find_by_id cm i) as [q|] eqn:E; [|destruct Hi].
  destruct Hi as [<-|[]]. apply (find_by_id_some _ _ _ E).
Qed.

(** With unique ids in the catalog, every category match is kept. *)
Lemma uniqueMatches_keeps cm catalog R :
  NoDup (map id catalog) -> incl cm catalog -> In R cm -> In R (uniqueMatches cm).
Proof.
  intros Hnd Hincl HR.
  assert (Hi : In (id R) (dedup (map id cm))) by (apply dedup_In, in_map; exact HR).
  destruct (find_by_id_dedup cm _ Hi) as [q Hq].
  destruct (find_by_id_some _ _ _ Hq) as [Hid Hqcm].
  assert (q = R) as ->.
  { apply (NoDup_map_inj id catalog); auto. }
  unfold uniqueMatches. apply in_flat_map. exists (id R). rewrite Hq. simpl. auto.
Qed.

Lemma uniqueMatches_nonempty cm : cm <> [] -> uniqueMatches cm <> [].
Proof.
  destruct cm as [|p cm']; [congruence|]. intros _.
  assert (Hi : In (id p) (dedup (map id (p :: cm')))) by (apply dedup_In; simpl; auto).
  destruct (find_by_id_dedup _ _ Hi) as [q Hq].
  intros E. assert (In q (uniqueMatches (p :: cm'))) as H; [|rewrite E in H; exact H].
  unfold uniqueMatches. apply in_flat_map. exists (id p). rewrite Hq. simpl. auto.
Qed.

Section PhaseFacts.

Variable productData : list Product.

Lemma category_fold_In vars acc p :
  In p (fold_left
          (fun categoryMatches variation =>
             categoryMatches ++
             filter (fun product => includes (normalizeHebrew (name product)) variation)
                    productData) vars acc) <->
  In p acc \/
  (In p productData /\ exists v, In v vars /\ includes (normalizeHebrew (name p)) v = true).
Proof.
  revert acc. induction vars as [|v vs IH]; simpl; intros acc.
  - split; [tauto|]. intros [H|[_ [v [[] _]]]]; exact H.
  - rewrite IH, in_app_iff, filter_In. split.
    + intros [[H|[H1 H2]]|[H1 [w [Hw H2]]]]; eauto 6.
    + intros [H|[H1 [w [[<-|Hw] H2]]]]; eauto 6.
Qed.

Lemma category_matches_In vars p :
  In p (category_matches productData vars) <->
  In p productData /\ exists v, In v vars /\ includes (normalizeHebrew (name p)) v = true.
Proof. unfold category_matches. rewrite category_fold_In. simpl. tauto. Qed.

Lemma insert_by_length_perm p l : Permutation (insert_by_length p l) (p :: l).
Proof.
  induction l as [|q l IH]; simpl; [auto|].
  destruct (length (name q) <=? length (name p))%nat; [auto|].
  eapply perm_trans; [apply perm_skip, IH|apply perm_swap].
Qed.

Lemma sort_by_length_perm l : Permutation (sort_by_length_desc l) l.
Proof.
  induction l as [|p l IH]; simpl; [auto|].
  eapply perm_trans; [apply insert_by_length_perm|auto].
Qed.

Lemma insert_by_length_sorted p l :
  StronglySorted longer_or_equal l -> StronglySorted longer_or_equal (insert_by_length p l).
Proof.
  induction l as [|q l IH]; simpl; intros H.
  - repeat constructor.
  - apply StronglySorted_inv in H as [Hl Hq].
    destruct (length (name q) <=? length (name p))%nat eqn:E.
    + apply Nat.leb_le in E. constructor; [constructor; auto|].
      constructor; [exact E|]. eapply Forall_impl; [|exact Hq].
      unfold longer_or_equal. intros y Hy. lia.
    + apply Nat.leb_gt in E. constructor; [auto|].
      apply Forall_forall. intros y Hy.
      apply (Permutation_in _ (insert_by_length_perm p l)) in Hy as [<-|Hy].
      * unfold longer_or_equal. lia.
      * rewrite Forall_forall in Hq. auto.
Qed.

Lemma sortedProducts_sorted : StronglySorted longer_or_equal (sortedProducts productData).
Proof.
  unfold sortedProducts. induction productData as [|p l IH]; simpl.
  - constructor.
  - apply insert_by_length_sorted. exact IH.
Qed.

Lemma sortedProducts_In p : In p (sortedProducts productData) <-> In p productData.
Proof.
  unfold sortedProducts. split; apply Permutation_in;
    [|symmetry]; apply sort_by_length_perm.
Qed.

Lemma sort_by_length_sorted l : StronglySorted longer_or_equal (sort_by_length_desc l).
Proof.
  induction l as [|p l IH]; simpl; [constructor|]. apply insert_by_length_sorted, IH.
Qed.

Lemma find_insert_by_length (f : Product -> bool) p l :
  StronglySorted longer_or_equal l ->
  find f (insert_by_length p l) =
  if f p then
    match find f l with
    | Some q => if (length (name p) <? length (name q))%nat then Some q else Some p
    | None => Some p
    end
  else find f l.
Proof.
  induction l as [|a l IH]; simpl; intros Hs.
  - destruct (f p); reflexivity.
  - apply StronglySorted_inv in Hs as [Hs Ha]. rewrite Forall_forall in Ha.
    destruct (length (name a) <=? length (name p))%nat eqn:E; simpl.
    + apply Nat.leb_le in E. destruct (f p) eqn:Fp; [|reflexivity].
      destruct (f a) eqn:Fa.
      * replace (length (name p) <? length (name a))%nat with false
          by (symmetry; apply Nat.ltb_ge; lia). reflexivity.
      * destruct (find f l) as [q|] eqn:Fq; [|reflexivity].
        apply find_some in Fq as [Hq _]. pose proof (Ha q Hq) as Hl.
        unfold longer_or_equal in Hl.
        replace (length (name p) <? length (name q))%nat with false
          by (symmetry; apply Nat.ltb_ge; lia). reflexivity.
    + apply Nat.leb_gt in E. rewrite (IH Hs).
      destruct (f a) eqn:Fa; [|reflexivity].
      destruct (f p); [|reflexivity].
      replace (length (name p) <? length (name a))%nat with true
        by (symmetry; apply Nat.ltb_lt; lia). reflexivity.
Qed.

Lemma first_longest_max f l q r :
  first_longest f l q -> In r l -> f r = true -> (length (name r) <= length (name q))%nat.
Proof.
  intros [Fq [pre [post [-> [Hpre Hpost]]]]] Hr Fr.
  destruct (Nat.le_gt_cases (length (name r)) (length (name q))) as [|Hlt]; [assumption|].
  exfalso. apply in_app_or in Hr as [Hr|[<-|Hr]].
  - rewrite (Hpre r Hr ltac:(lia)) in Fr. discriminate.
  - lia.
  - rewrite (Hpost r Hr Hlt) in Fr. discriminate.
Qed.

Lemma find_sort_by_length f l q :
  find f (sort_by_length_desc l) = Some q -> first_longest f l q.
Proof.
  revert q. induction l as [|p l IH]; simpl; intros q; [discriminate|].
  rewrite find_insert_by_length by apply sort_by_length_sorted.
  assert (Hnone : find f (sort_by_length_desc l) = None -> forall r, In r l -> f r = false).
  { intros E r Hr. apply (find_none _ _ E).
    apply (Permutation_in _ (Permutation_sym (sort_by_length_perm l))). exact Hr. }
  destruct (f p) eqn:Fp.
  - destruct (find f (sort_by_length_desc l)) as [q'|] eqn:E.
    + pose proof (IH q' eq_refl) as Hfl.
      destruct Hfl as [Fq' [pre [post [Hl [Hpre Hpost]]]]].
      destruct (length (name p) <? length (name q'))%nat eqn:Lt; intros [= <-].
      * apply Nat.ltb_lt in Lt. split; [exact Fq'|]. exists (p :: pre), post.
        split; [rewrite Hl; reflexivity|]. split; [|exact Hpost].
        intros r [<-|Hr] Hle; [lia|auto].
      * apply Nat.ltb_ge in Lt. split; [exact Fp|]. exists [], l.
        split; [reflexivity|]. split; [intros r []|].
        intros r Hr Hlt. destruct (f r) eqn:Fr; [|reflexivity].
        pose proof (first_longest_max f l q' r (IH q' eq_refl) Hr Fr). lia.
    + intros [= <-]. split; [exact Fp|]. exists [], l.
      split; [reflexivity|]. split; [intros r []|]. intros r Hr _. exact (Hnone eq_refl r Hr).
  - intros E. destruct (IH q E) as [Fq [pre [post [Hl [Hpre Hpost]]]]].
    split; [exact Fq|]. exists (p :: pre), post. split; [rewrite Hl; reflexivity|].
    split; [|exact Hpost]. intros r [<-|Hr] Hle; auto.
Qed.

Lemma partial_phase_none vars :
  partial_phase productData vars = None <->
  (forall v p, In v vars -> In p productData -> includes v (normalizeHebrew (name p)) = false).
Proof.
  unfold partial_phase. split.
  - intros E v p Hv Hp.
    pose proof (find_none _ _ E p (proj2 (sortedProducts_In p) Hp)) as Hf. simpl in Hf.
    destruct (includes v (normalizeHebrew (name p))) eqn:I; [|reflexivity].
    assert (existsb (fun variation => includes variation (normalizeHebrew (name p))) vars
            = true) by (apply existsb_exists; eauto).
    congruence.
  - intros H. destruct (find _ _) as [p|] eqn:E; [|reflexivity].
    apply find_some in E as [Hp Hf]. apply sortedProducts_In in Hp.
    apply existsb_exists in Hf as [v [Hv Hi]]. rewrite (H v p Hv Hp) in Hi. discriminate.
Qed.

Lemma partial_phase_some vars q :
  partial_phase productData vars = Some q ->
  In q productData /\ exists v, In v vars /\ includes v (normalizeHebrew (name q)) = true.
Proof.
  unfold partial_phase. intros E. apply find_some in E as [Hq Hf].
  apply sortedProducts_In in Hq. apply existsb_exists in Hf. auto.
Qed.

Lemma category_none vars :
  uniqueMatches (category_matches productData vars) = [] <->
  (forall v p, In v vars -> In p productData -> includes (normalizeHebrew (name p)) v = false).
Proof.
  split.
  - intros E v p Hv Hp. destruct (includes _ v) eqn:I; [|reflexivity]. exfalso.
    assert (Hc : In p (category_matches productData vars))
      by (apply category_matches_In; eauto).
    apply (uniqueMatches_nonempty (category_matches productData vars)); [|exact E].
    intros E'. rewrite E' in Hc. exact Hc.
  - intros H. destruct (uniqueMatches _) as [|p u] eqn:E; [reflexivity|]. exfalso.
    assert (Hp : In p (uniqueMatches (category_matches productData vars)))
      by (rewrite E; simpl; auto).
    apply uniqueMatches_In, category_matches_In in Hp as [Hp [v [Hv Hi]]].
    rewrite (H v p Hv Hp) in Hi. discriminate.
Qed.

End PhaseFacts.

Lemma find_split {A} (f : A -> bool) l x :
  find f l = Some x ->
  exists pre post, l = pre ++ x :: post /\ forall y, In y pre -> f y = false.
Proof.
  induction l as [|a l IH]; simpl; [discriminate|].
  destruct (f a) eqn:E.
  - intros [= ->]. exists [], l. split; [reflexivity|intros y []].
  - intros H. destruct (IH H) as [pre [post [-> Hpre]]].
    exists (a :: pre), post. split; [reflexivity|]. intros y [<-|Hy]; auto.
Qed.

Lemma StronglySorted_app_r {A} (R : A -> A -> Prop) pre l :
  StronglySorted R (pre ++ l) -> StronglySorted R l.
Proof.
  induction pre as [|a pre IH]; simpl; [auto|].
  intros H. apply StronglySorted_inv in H as [H _]. auto.
Qed.

(** ** Claims *)

(** C2: for a catalog whose normalized names are pairwise distinct,
    [findProduct] on the (non-empty) name of a record R returns exactly
    [[R]], found by the exact tier, whatever other names are included in
    R's name. *)
Theorem findProduct_own_name productData R :
  In R productData ->
  NoDup (map (fun p => normalizeHebrew (name p)) productData) ->
  name R <> [] ->
  findProduct productData (name R) = Some [R].
Proof.
  intros HR Hnd Hne.
  rewrite (findProduct_unfold _ _ Hne). cbv zeta.
  destruct (variations_head (normalizeHebrew (name R))) as [rest ->]. simpl.
  rewrite (find_unique_name productData R _ HR Hnd eq_refl). reflexivity.
Qed.

Lemma findProduct_own_name_witness :
  In red_onion onion_catalog /\
  NoDup (map (fun p => normalizeHebrew (name p)) onion_catalog) /\
  name red_onion <> [] /\
  findProduct onion_catalog (name red_onion) = Some [red_onion].
Proof.
  assert (H1 : In red_onion onion_catalog) by (simpl; auto).
  assert (H2 : NoDup (map (fun p => normalizeHebrew (name p)) onion_catalog)).
  { vm_compute. repeat constructor; simpl; intuition discriminate. }
  assert (H3 : name red_onion <> []) by discriminate.
  split; [exact H1|]. split; [exact H2|]. split; [exact H3|].
  exact (findProduct_own_name onion_catalog red_onion H1 H2 H3).
Defined.

(** C3: the tiers are strictly prioritized.  When some variation of a
    (non-empty) transcript equals a record's normalized name, the result is
    the single record found by the exact tier; on the catalog
    [Onion (id 1); Red Onion (id 2)], "Onion" gives only the record 1. *)
Theorem findProduct_exact_tier_wins productData t v p :
  t <> [] ->
  In v (getHebrewVariations (normalizeHebrew t)) ->
  In p productData ->
  normalizeHebrew (name p) = v ->
  (exists q, exact_phase productData (getHebrewVariations (normalizeHebrew t)) = Some q /\
             findProduct productData t = Some [q] /\
             In q productData /\
             In (normalizeHebrew (name q)) (getHebrewVariations (normalizeHebrew t))) /\
  findProduct onion_catalog (js "Onion") = Some [onion].
Proof.
  intros Ht Hv Hp Heq. split; [|vm_compute; reflexivity].
  rewrite (findProduct_unfold _ _ Ht). cbv zeta.
  destruct (exact_phase productData _) as [q|] eqn:E.
  - exists q. destruct (exact_phase_some _ _ _ E). auto.
  - exfalso. exact (proj1 (exact_phase_none productData _) E v p Hv Hp Heq).
Qed.

Lemma findProduct_exact_tier_wins_witness :
  js "Onion" <> [] /\
  In (js "onion") (getHebrewVariations (normalizeHebrew (js "Onion"))) /\
  In onion onion_catalog /\
  normalizeHebrew (name onion) = js "onion" /\
  findProduct onion_catalog (js "Onion") = Some [onion].
Proof.
  assert (H1 : js "Onion" <> []) by discriminate.
  assert (H2 : In (js "onion") (getHebrewVariations (normalizeHebrew (js "Onion"))))
    by (vm_compute; auto).
  assert (H3 : In onion onion_catalog) by (simpl; auto).
  assert (H4 : normalizeHebrew (name onion) = js "onion") by (vm_compute; reflexivity).
  split; [exact H1|]. split; [exact H2|]. split; [exact H3|]. split; [exact H4|].
  exact (proj2 (findProduct_exact_tier_wins onion_catalog _ _ _ H1 H2 H3 H4)).
Defined.

(** C10: on a transcript whose normalized key is the normalized name of a
    record R (normalized names pairwise distinct), the legacy matcher
    returns R exactly when the canonical matcher returns [[R]]. *)
Theorem legacy_agrees_on_exact productData t R :
  In R productData ->
  NoDup (map (fun p => normalizeHebrew (name p)) productData) ->
  normalizeHebrew (name R) = normalizeHebrew t ->
  (legacy_findProduct productData t = Some R <-> findProduct productData t = Some [R]).
Proof.
  intros HR Hnd Hk.
  destruct t as [|c t'] eqn:Et.
  - simpl. split; discriminate.
  - rewrite <- Et in *. assert (Ht : t <> []) by (subst; discriminate).
    assert (Hl : legacy_findProduct productData t = Some R).
    { unfold legacy_findProduct. rewrite Et. rewrite <- Et.
      rewrite (find_unique_name productData R _ HR Hnd Hk). reflexivity. }
    assert (Hc : findProduct productData t = Some [R]).
    { rewrite (findProduct_unfold _ _ Ht). cbv zeta.
      destruct (variations_head (normalizeHebrew t)) as [rest ->]. simpl.
      rewrite (find_unique_name productData R _ HR Hnd Hk). reflexivity. }
    rewrite Hl, Hc. tauto.
Qed.

Lemma legacy_agrees_on_exact_witness :
  In onion onion_catalog /\
  NoDup (map (fun p => normalizeHebrew (name p)) onion_catalog) /\
  normalizeHebrew (name onion) = normalizeHebrew (js "  ONION ") /\
  (legacy_findProduct onion_catalog (js "  ONION ") = Some onion <->
   findProduct onion_catalog (js "  ONION ") = Some [onion]).
Proof.
  assert (H1 : In onion onion_catalog) by (simpl; auto).
  assert (H2 : NoDup (map (fun p => normalizeHebrew (name p)) onion_catalog)).
  { vm_compute. repeat constructor; simpl; intuition discriminate. }
  assert (H3 : normalizeHebrew (name onion) = normalizeHebrew (js "  ONION "))
    by (vm_compute; reflexivity).
  split; [exact H1|]. split; [exact H2|]. split; [exact H3|].
  exact (legacy_agrees_on_exact onion_catalog _ onion H1 H2 H3).
Defined.

(** C1 (code defect): [findProduct] returns [null] on the empty string, but
    its guard [if (!transcript)] runs before trimming, so a whitespace-only
    transcript normalizes to [""], which every name includes, and the
    category tier returns the whole catalog. *)
Theorem findProduct_whitespace_only :
  findProduct onion_catalog [] = None /\
  findProduct onion_catalog (js "  ") = Some [onion; red_onion].
Proof. split; vm_compute; reflexivity. Qed.

(** C5, as the spec words it (no [key + 'ים'] for keys ending in 'ות'),
    fails: 'עגבניות' gets the variation 'עגבניותים'. *)
Lemma variations_plural_ot_counterexample :
  endsWith tomatoes_plural SUFFIX_OT = true /\
  endsWith tomatoes_plural SUFFIX_IM = false /\
  In (tomatoes_plural ++ SUFFIX_IM) (getHebrewVariations tomatoes_plural).
Proof. vm_compute. split; [reflexivity|]. split; [reflexivity|]. auto 10. Qed.

Lemma variations_length_im key y :
  endsWith key SUFFIX_IM = true ->
  In y (getHebrewVariations key) -> (length y <= length key + 1)%nat.
Proof.
  intros E.
  assert (L : (2 <= length key)%nat).
  { unfold endsWith in E. apply andb_prop in E as [E _]. apply Nat.leb_le in E.
    exact E. }
  unfold getHebrewVariations, slice_drop_end. rewrite E.
  destruct (endsWith key SUFFIX_OT), (endsWith key SUFFIX_AH);
    repeat rewrite set_add_In; simpl; intros H;
    repeat match goal with H : _ \/ _ |- _ => destruct H end;
    try match goal with H : False |- _ => destruct H end; subst;
    repeat rewrite length_app; repeat rewrite length_firstn; simpl; lia.
Qed.

(** C5 (amended): [key + 'ים'] is a variation of [key] exactly when [key]
    does not end with 'ים'; the rule is independent of the 'ות'/'ה' rule,
    so keys ending with 'ות' get it too. *)
Theorem variations_add_im key :
  In (key ++ SUFFIX_IM) (getHebrewVariations key) <-> endsWith key SUFFIX_IM = false.
Proof.
  split.
  - intros H. destruct (endsWith key SUFFIX_IM) eqn:E; [|reflexivity]. exfalso.
    pose proof (variations_length_im key _ E H) as L.
    rewrite length_app in L. simpl in L. lia.
  - intros E. unfold getHebrewVariations. rewrite E. apply set_add_In. right. reflexivity.
Qed.

(** C6, as the spec words it, fails: removing punctuation after trimming
    can leave surrounding spaces ("Milk -" normalizes to "milk "), and the
    non-overlapping yod replacement turns three yods into two. *)
Lemma normalize_not_idempotent :
  normalizeHebrew (js "Milk -") = js "milk " /\
  normalizeHebrew (normalizeHebrew (js "Milk -")) = js "milk" /\
  normalizeHebrew [YOD; YOD; YOD] = [YOD; YOD] /\
  normalizeHebrew (normalizeHebrew [YOD; YOD; YOD]) = [YOD].
Proof. vm_compute. repeat split. Qed.

(** C6 (amended): normalizing a key a second time returns it unchanged
    exactly when the key has no surrounding whitespace and no adjacent
    yods ('יי'), the two things the first pass can leave behind. *)
Theorem normalize_idempotent_iff s :
  normalizeHebrew (normalizeHebrew s) = normalizeHebrew s <->
  trim (normalizeHebrew s) = normalizeHebrew s /\
  replace_double_yod (normalizeHebrew s) = normalizeHebrew s.
Proof.
  set (n := normalizeHebrew s). split.
  - intros Hn.
    assert (Lr : (length (normalizeHebrew n) <= length (replace_double_yod (trim n)))%nat).
    { unfold normalizeHebrew at 1, toLowerCase. rewrite length_map.
      apply remove_punctuation_len. }
    destruct (trim_len n) as [T1 T2].
    destruct (replace_double_yod_len _ (trim n) (le_n _)) as [R1 R2].
    rewrite Hn in Lr.
    assert (Ht : trim n = n) by (apply T2; lia).
    split; [exact Ht|]. rewrite Ht in R1, R2, Lr. apply R2. lia.
  - intros [Ht Hy]. apply normalize_fixed; auto.
    + intros c Hc. apply (normalize_no_punct s c). exact Hc.
    + apply normalize_lower.
Qed.

(** C7: a non-null result of [findProduct] never repeats an id. *)
Theorem findProduct_ids_distinct productData t l :
  findProduct productData t = Some l -> NoDup (map id l).
Proof.
  destruct t as [|c t'] eqn:Et; [discriminate|]. rewrite <- Et.
  assert (Ht : t <> []) by (subst; discriminate).
  rewrite (findProduct_unfold _ _ Ht). cbv zeta.
  destruct (exact_phase _ _) as [q|].
  - intros [= <-]. repeat constructor. simpl. tauto.
  - destruct (partial_phase _ _) as [q|].
    + intros [= <-]. repeat constructor. simpl. tauto.
    + destruct (0 <? length _)%nat; [|discriminate].
      intros [= <-]. apply uniqueMatches_ids_NoDup.
Qed.

Lemma findProduct_ids_distinct_witness :
  findProduct onion_family (js "onion") = Some [red_onion; onion_rings] /\
  NoDup (map id [red_onion; onion_rings]).
Proof.
  assert (H : findProduct onion_family (js "onion") = Some [red_onion; onion_rings])
    by (vm_compute; reflexivity).
  split; [exact H|]. exact (findProduct_ids_distinct _ _ _ H).
Defined.

(** C8: the category tier is reached.  For a non-empty transcript with no
    exact-tier and no contained-phrase hit, a record (of a catalog with
    unique ids) whose normalized name includes a variation of the
    transcript is in the result; with the one record 'עגבניות שרי' (id 9),
    the singular 'עגבניה', whose plural variation 'עגבניות' the name
    includes, gives exactly that record. *)
Theorem findProduct_category_reach productData t R v :
  t <> [] ->
  (forall w p, In w (getHebrewVariations (normalizeHebrew t)) -> In p productData ->
               normalizeHebrew (name p) <> w) ->
  (forall w p, In w (getHebrewVariations (normalizeHebrew t)) -> In p productData ->
               includes w (normalizeHebrew (name p)) = false) ->
  NoDup (map id productData) ->
  In R productData ->
  In v (getHebrewVariations (normalizeHebrew t)) ->
  includes (normalizeHebrew (name R)) v = true ->
  (exists l, findProduct productData t = Some l /\ In R l) /\
  findProduct cherry_catalog tomato_singular = Some [cherry_tomatoes].
Proof.
  intros Ht Hex Hpart Hnd HR Hv Hi. split; [|vm_compute; reflexivity].
  rewrite (findProduct_unfold _ _ Ht). cbv zeta.
  rewrite (proj2 (exact_phase_none _ _) Hex), (proj2 (partial_phase_none _ _) Hpart).
  set (cm := category_matches productData _).
  assert (HRcm : In R cm) by (apply category_matches_In; eauto).
  assert (Hincl : incl cm productData)
    by (intros p Hp; apply category_matches_In in Hp; tauto).
  pose proof (uniqueMatches_keeps cm productData R Hnd Hincl HRcm) as HRu.
  destruct (uniqueMatches cm) as [|p u]; [destruct HRu|].
  exists (p :: u). simpl. auto.
Qed.

Lemma findProduct_category_reach_witness :
  (exists l, findProduct cherry_catalog tomato_singular = Some l /\ In cherry_tomatoes l) /\
  findProduct cherry_catalog tomato_singular = Some [cherry_tomatoes].
Proof.
  assert (H1 : tomato_singular <> []) by discriminate.
  assert (H2 : forall w p, In w (getHebrewVariations (normalizeHebrew tomato_singular)) ->
                 In p cherry_catalog -> normalizeHebrew (name p) <> w).
  { vm_compute. intros w p Hw [<-|[]]. repeat destruct Hw as [<-|Hw]; try discriminate.
    destruct Hw. }
  assert (H3 : forall w p, In w (getHebrewVariations (normalizeHebrew tomato_singular)) ->
                 In p cherry_catalog -> includes w (normalizeHebrew (name p)) = false).
  { intros w p Hw [<-|[]]. vm_compute in Hw. repeat destruct Hw as [<-|Hw];
    try (vm_compute; reflexivity). destruct Hw. }
  assert (H4 : NoDup (map id cherry_catalog)) by (repeat constructor; simpl; tauto).
  assert (H5 : In cherry_tomatoes cherry_catalog) by (simpl; auto).
  assert (H6 : In tomatoes_plural (getHebrewVariations (normalizeHebrew tomato_singular)))
    by (vm_compute; auto).
  assert (H7 : includes (normalizeHebrew (name cherry_tomatoes)) tomatoes_plural = true)
    by (vm_compute; reflexivity).
  exact (findProduct_category_reach _ _ _ _ H1 H2 H3 H4 H5 H6 H7).
Defined.

(** C9: [findProduct] is a total function.  It returns [null] exactly
    when the transcript is empty or no tier has a hit; a returned sequence
    is never empty; and the non-null assertion of the deduplication step
    never fails. *)
Theorem findProduct_total productData t :
  (findProduct productData t = None <->
   t = [] \/
   ((forall v p, In v (getHebrewVariations (normalizeHebrew t)) -> In p productData ->
                 normalizeHebrew (name p) <> v) /\
    (forall v p, In v (getHebrewVariations (normalizeHebrew t)) -> In p productData ->
                 includes v (normalizeHebrew (name p)) = false) /\
    (forall v p, In v (getHebrewVariations (normalizeHebrew t)) -> In p productData ->
                 includes (normalizeHebrew (name p)) v = false))) /\
  (forall l, findProduct productData t = Some l -> l <> []) /\
  (forall i, In i (dedup (map id (category_matches productData
                                    (getHebrewVariations (normalizeHebrew t))))) ->
             exists p, find_by_id (category_matches productData
                                     (getHebrewVariations (normalizeHebrew t))) i = Some p).
Proof.
  split; [|split; [|intros i; apply find_by_id_dedup]].
  - destruct t as [|c t'] eqn:Et; [simpl; tauto|]. rewrite <- Et.
    assert (Ht : t <> []) by (subst; discriminate).
    rewrite (findProduct_unfold _ _ Ht). cbv zeta.
    set (V := getHebrewVariations (normalizeHebrew t)).
    destruct (exact_phase productData V) as [q|] eqn:E1.
    { split; [discriminate|]. intros [H|[A _]]; [contradiction|].
      rewrite (proj2 (exact_phase_none _ _) A) in E1. discriminate. }
    destruct (partial_phase productData V) as [q|] eqn:E2.
    { split; [discriminate|]. intros [H|[_ [B _]]]; [contradiction|].
      rewrite (proj2 (partial_phase_none _ _) B) in E2. discriminate. }
    destruct (0 <? length (uniqueMatches (category_matches productData V)))%nat eqn:E3.
    + split; [discriminate|]. intros [H|[_ [_ C]]]; [contradiction|].
      rewrite (proj2 (category_none _ _) C) in E3. discriminate.
    + split; [intros _|reflexivity]. right.
      split; [apply exact_phase_none; exact E1|].
      split; [apply partial_phase_none; exact E2|].
      apply category_none.
      destruct (uniqueMatches _) as [|p u]; [reflexivity|discriminate].
  - intros l. destruct t as [|c t'] eqn:Et; [discriminate|]. rewrite <- Et.
    assert (Ht : t <> []) by (subst; discriminate).
    rewrite (findProduct_unfold _ _ Ht). cbv zeta.
    destruct (exact_phase _ _) as [q|]; [intros [= <-]; discriminate|].
    destruct (partial_phase _ _) as [q|]; [intros [= <-]; discriminate|].
    destruct (uniqueMatches _) as [|p u]; [discriminate|]. intros [= <-]. discriminate.
Qed.

Lemma findProduct_total_witness :
  (findProduct onion_catalog (js "Nonexistent Product") = None <->
   js "Nonexistent Product" = [] \/
   ((forall v p, In v (getHebrewVariations (normalizeHebrew (js "Nonexistent Product"))) ->
                 In p onion_catalog -> normalizeHebrew (name p) <> v) /\
    (forall v p, In v (getHebrewVariations (normalizeHebrew (js "Nonexistent Product"))) ->
                 In p onion_catalog -> includes v (normalizeHebrew (name p)) = false) /\
    (forall v p, In v (getHebrewVariations (normalizeHebrew (js "Nonexistent Product"))) ->
                 In p onion_catalog -> includes (normalizeHebrew (name p)) v = false))) /\
  findProduct onion_catalog (js "Nonexistent Product") = None.
Proof.
  split; [exact (proj1 (findProduct_total onion_catalog (js "Nonexistent Product")))|].
  vm_compute. reflexivity.
Defined.

(** C4, as the spec words it, fails: the contained-phrase tier orders the
    records by the length of their raw names.  "Onion..." (raw length 8,
    normalized "onion") comes before "Onions" (raw length 6, normalized
    "onions"), both are included in "onions please", and the record with
    the shorter normalized name is returned. *)
Lemma partial_order_raw_length_counterexample :
  exact_phase dots_catalog (getHebrewVariations (normalizeHebrew (js "Onions please"))) = None /\
  includes (normalizeHebrew (js "Onions please")) (normalizeHebrew (name onion_dots)) = true /\
  includes (normalizeHebrew (js "Onions please")) (normalizeHebrew (name onions)) = true /\
  (length (normalizeHebrew (name onion_dots)) < length (normalizeHebrew (name onions)))%nat /\
  findProduct dots_catalog (js "Onions please") = Some [onion_dots].
Proof. vm_compute. repeat split; lia. Qed.

(** C4 (amended): the contained-phrase tier scans the records by raw
    [name.length], longest first, equal lengths in catalog order.  For a
    non-empty transcript with no exact-tier hit and some record whose
    normalized name is included in a variation, the result is [[q]] for
    the first such record [q] in that order: no record before [q] in the
    catalog with a raw name at least as long matches, and no record after
    it with a strictly longer raw name matches.  So of two matching
    records, the one with the strictly shorter raw name is never the
    result. *)
Theorem findProduct_longest_raw_first productData t :
  t <> [] ->
  exact_phase productData (getHebrewVariations (normalizeHebrew t)) = None ->
  (exists p, In p productData /\
             matches_some_variation (getHebrewVariations (normalizeHebrew t)) p = true) ->
  exists q,
    findProduct productData t = Some [q] /\
    first_longest (matches_some_variation (getHebrewVariations (normalizeHebrew t)))
                  productData q /\
    (forall p1 p2, In p1 productData ->
       matches_some_variation (getHebrewVariations (normalizeHebrew t)) p1 = true ->
       (length (name p2) < length (name p1))%nat -> q <> p2).
Proof.
  intros Ht E1 [p [Hp Hm]].
  set (V := getHebrewVariations (normalizeHebrew t)) in *.
  destruct (partial_phase productData V) as [q|] eqn:E2.
  2:{ unfold matches_some_variation in Hm. apply existsb_exists in Hm as [v [Hv Hi]].
      rewrite (proj1 (partial_phase_none _ _) E2 v p Hv Hp) in Hi. discriminate. }
  assert (Hfl : first_longest (matches_some_variation V) productData q)
    by (apply find_sort_by_length; exact E2).
  exists q. split; [|split; [exact Hfl|]].
  - rewrite (findProduct_unfold _ _ Ht). cbv zeta. fold V. rewrite E1, E2. reflexivity.
  - intros p1 p2 Hp1 Hm1 Hlt <-.
    pose proof (first_longest_max _ _ _ _ Hfl Hp1 Hm1). lia.
Qed.

Lemma findProduct_longest_raw_first_witness :
  exists q,
    findProduct onion_catalog (js "I want a Red Onion please") = Some [q] /\
    first_longest
      (matches_some_variation (getHebrewVariations (normalizeHebrew (js "I want a Red Onion please"))))
      onion_catalog q /\
    (forall p1 p2, In p1 onion_catalog ->
       matches_some_variation
         (getHebrewVariations (normalizeHebrew (js "I want a Red Onion please"))) p1 = true ->
       (length (name p2) < length (name p1))%nat -> q <> p2).
Proof.
  apply findProduct_longest_raw_first.
  - discriminate.
  - vm_compute. reflexivity.
  - exists onion. split; [simpl; auto|vm_compute; reflexivity].
Defined.

(** ** Case and surrounding whitespace *)

Ltac Zbool_cases :=
  repeat (match goal with
          | |- context [Z.leb ?a ?b] => destruct (Z.leb_spec a b)
          | |- context [Z.eqb ?a ?b] => destruct (Z.eqb_spec a b)
          end; simpl).

Lemma ws_between x : 14 <= x <= 1200 -> x <> 32 -> x <> 160 -> is_js_whitespace x = false.
Proof. intros. unfold is_js_whitespace. Zbool_cases; first [reflexivity | lia]. Qed.

Lemma lower_unit_ws c : is_js_whitespace (lower_unit c) = is_js_whitespace c.
Proof.
  destruct (Z.eq_dec (lower_unit c) c) as [->|Hne]; [reflexivity|].
  pose proof (lower_unit_spec c).
  rewrite !ws_between; try reflexivity; lia.
Qed.

Lemma lower_unit_yod c : (lower_unit c =? YOD) = (c =? YOD).
Proof.
  pose proof (lower_unit_spec c). unfold YOD.
  destruct (Z.eqb_spec c 1497), (Z.eqb_spec (lower_unit c) 1497); auto; lia.
Qed.

Lemma punct_lower_fixed x : In x punctuation -> lower_unit x = x.
Proof.
  simpl. intros H. repeat destruct H as [<-|H]; try reflexivity; destruct H.
Qed.

Lemma lower_unit_punct c : is_punct (lower_unit c) = is_punct c.
Proof.
  destruct (is_punct c) eqn:E.
  - apply is_punct_In in E as E'. rewrite (punct_lower_fixed _ E'). exact E.
  - apply lower_unit_not_punct. exact E.
Qed.

Lemma drop_leading_ws_lower s :
  drop_leading_ws (toLowerCase s) = toLowerCase (drop_leading_ws s).
Proof.
  induction s as [|c s IH]; [reflexivity|]. simpl. rewrite lower_unit_ws.
  destruct (is_js_whitespace c); [exact IH|reflexivity].
Qed.

Lemma trim_lower s : trim (toLowerCase s) = toLowerCase (trim s).
Proof.
  pose proof drop_leading_ws_lower as D. unfold toLowerCase in *. unfold trim.
  rewrite D, <- map_rev, D, map_rev. reflexivity.
Qed.

Lemma replace_double_yod_lower n : forall s, (length s <= n)%nat ->
  replace_double_yod (toLowerCase s) = toLowerCase (replace_double_yod s).
Proof.
  induction n as [|n IH]; intros s Hs.
  - destruct s; [reflexivity|simpl in Hs; lia].
  - destruct s as [|a [|b t]]; [reflexivity|reflexivity|].
    change (toLowerCase (a :: b :: t)) with (lower_unit a :: lower_unit b :: toLowerCase t).
    rewrite !replace_double_yod_cons2, !lower_unit_yod.
    destruct ((a =? YOD) && (b =? YOD)) eqn:E; simpl in Hs.
    + rewrite (IH t) by lia. reflexivity.
    + change (lower_unit b :: toLowerCase t) with (toLowerCase (b :: t)).
      rewrite (IH (b :: t)) by (simpl; lia). reflexivity.
Qed.

Lemma remove_punctuation_lower s :
  remove_punctuation (toLowerCase s) = toLowerCase (remove_punctuation s).
Proof.
  induction s as [|c s IH]; [reflexivity|]. simpl. rewrite lower_unit_punct.
  destruct (is_punct c); simpl; [exact IH|]. f_equal. exact IH.
Qed.

Lemma normalize_of_lower s : normalizeHebrew (toLowerCase s) = normalizeHebrew s.
Proof.
  unfold normalizeHebrew. rewrite trim_lower.
  rewrite (replace_double_yod_lower _ _ (le_n _)), remove_punctuation_lower.
  unfold toLowerCase. rewrite map_map. apply map_ext. apply lower_unit_idem.
Qed.

Lemma drop_leading_ws_idem s : drop_leading_ws (drop_leading_ws s) = drop_leading_ws s.
Proof.
  induction s as [|c s IH]; [reflexivity|]. simpl.
  destruct (is_js_whitespace c) eqn:E; [exact IH|]. simpl. rewrite E. reflexivity.
Qed.

Lemma drop_leading_ws_suffix s : exists p, s = p ++ drop_leading_ws s.
Proof.
  induction s as [|c s [p Hp]]; [exists []; reflexivity|]. simpl.
  destruct (is_js_whitespace c).
  - exists (c :: p). simpl. f_equal. exact Hp.
  - exists []. reflexivity.
Qed.

(** A string without leading whitespace keeps none when its end is trimmed. *)
Lemma drop_leading_ws_prefix x :
  drop_leading_ws x = x ->
  drop_leading_ws (rev (drop_leading_ws (rev x))) = rev (drop_leading_ws (rev x)).
Proof.
  intros Hx. destruct (drop_leading_ws_suffix (rev x)) as [p Hp].
  assert (Hsplit : x = rev (drop_leading_ws (rev x)) ++ rev p).
  { rewrite <- (rev_involutive x) at 1. rewrite Hp at 1. rewrite rev_app_distr. reflexivity. }
  destruct (rev (drop_leading_ws (rev x))) as [|c u] eqn:E; [reflexivity|].
  rewrite Hsplit in Hx. simpl in Hx |- *.
  destruct (is_js_whitespace c); [|reflexivity]. exfalso.
  pose proof (f_equal (@length Z) Hx) as L.
  destruct (drop_leading_ws_len (u ++ rev p)) as [L1 _]. simpl in L. lia.
Qed.

Lemma trim_idem s : trim (trim s) = trim s.
Proof.
  unfold trim at 2. set (u := drop_leading_ws s).
  unfold trim. rewrite (drop_leading_ws_prefix u (drop_leading_ws_idem s)).
  rewrite rev_involutive, drop_leading_ws_idem. reflexivity.
Qed.

Lemma normalize_of_trim s : normalizeHebrew (trim s) = normalizeHebrew s.
Proof. unfold normalizeHebrew. rewrite trim_idem. reflexivity. Qed.

(** X3: for a transcript of Basic Latin and Hebrew code units, changing
    its case or the whitespace around it does not change what
    [findProduct] returns, as long as something is left after trimming. *)
Theorem findProduct_case_space_insensitive productData t :
  forallb ascii_or_hebrew t = true ->
  trim t <> [] ->
  findProduct productData (toLowerCase (trim t)) = findProduct productData t.
Proof.
  intros _ Ht.
  assert (H1 : toLowerCase (trim t) <> []).
  { unfold toLowerCase. destruct (trim t); [congruence|discriminate]. }
  assert (H2 : t <> []) by (intros ->; apply Ht; reflexivity).
  rewrite (findProduct_unfold _ _ H1), (findProduct_unfold _ _ H2).
  rewrite normalize_of_lower, normalize_of_trim. reflexivity.
Qed.

Lemma findProduct_case_space_insensitive_witness :
  findProduct spanner_catalog (toLowerCase (trim (js "  Super Spanner  "))) =
  findProduct spanner_catalog (js "  Super Spanner  ").
Proof.
  apply findProduct_case_space_insensitive; vm_compute; [reflexivity|discriminate].
Defined.

(** ** The [Map] matcher *)

Lemma map_get_set k k' v m :
  map_get k (map_set k' v m) = if str_eqb k k' then Some v else map_get k m.
Proof.
  induction m as [|[k0 v0] m IH]; simpl.
  - destruct (str_eqb k k'); reflexivity.
  - destruct (str_eqb k' k0) eqn:E.
    + apply str_eqb_true in E as ->. simpl. destruct (str_eqb k k0); reflexivity.
    + simpl. rewrite IH. destruct (str_eqb k k') eqn:E1, (str_eqb k k0) eqn:E2; auto.
      apply str_eqb_true in E1, E2. subst. rewrite str_eqb_refl in E. discriminate.
Qed.

Lemma find_app {A} (f : A -> bool) l1 l2 :
  find f (l1 ++ l2) = match find f l1 with Some x => Some x | None => find f l2 end.
Proof.
  induction l1 as [|a l1 IH]; simpl; [reflexivity|]. destruct (f a); auto.
Qed.

Lemma productMap_get k productData m :
  map_get k (fold_left (fun m product => map_set (map_key (name product)) product m)
                       productData m) =
  match find (fun p => str_eqb (map_key (name p)) k) (rev productData) with
  | Some p => Some p
  | None => map_get k m
  end.
Proof.
  revert m. induction productData as [|p l IH]; intros m; simpl; [reflexivity|].
  rewrite IH, find_app, map_get_set. simpl.
  destruct (find _ (rev l)); [reflexivity|].
  destruct (str_eqb k (map_key (name p))) eqn:E1, (str_eqb (map_key (name p)) k) eqn:E2;
    auto; apply str_eqb_true in E1 || apply str_eqb_true in E2; subst;
    rewrite str_eqb_refl in *; discriminate.
Qed.

(** X1: the [Map] version returns the LAST catalog record whose
    [name.trim().toLowerCase()] equals the transcript's
    [trim().toLowerCase()] (a later record with the same cleaned name
    overwrites an earlier one in the map), and [null] when there is none. *)
Theorem map_findProduct_last productData t :
  map_findProduct productData t =
  find (fun p => str_eqb (map_key (name p)) (map_key t)) (rev productData).
Proof.
  unfold map_findProduct, productMap. rewrite productMap_get.
  destruct (find _ _); reflexivity.
Qed.

Lemma map_key_idem s : map_key (map_key s) = map_key s.
Proof.
  unfold map_key. rewrite trim_lower, trim_idem. unfold toLowerCase.
  rewrite map_map. apply map_ext. apply lower_unit_idem.
Qed.

(** X2: the [Map] version ignores case and surrounding whitespace: a
    transcript and its [trim().toLowerCase()] find the same record. *)
Theorem map_findProduct_clean productData t :
  map_findProduct productData (map_key t) = map_findProduct productData t.
Proof. unfold map_findProduct. rewrite map_key_idem. reflexivity. Qed.

(** ** The screen *)

Lemma findProduct_some_props productData t l :
  findProduct productData t = Some l ->
  l <> [] /\ NoDup (map id l) /\ incl l productData.
Proof.
  destruct t as [|c t'] eqn:Et; [discriminate|]. rewrite <- Et.
  assert (Ht : t <> []) by (subst; discriminate).
  rewrite (findProduct_unfold _ _ Ht). cbv zeta.
  destruct (exact_phase _ _) as [q|] eqn:E1.
  { intros [= <-]. apply exact_phase_some in E1 as [Hq _].
    split; [discriminate|]. split; [repeat constructor; simpl; tauto|].
    intros x [<-|[]]. exact Hq. }
  destruct (partial_phase _ _) as [q|] eqn:E2.
  { intros [= <-]. apply partial_phase_some in E2 as [Hq _].
    split; [discriminate|]. split; [repeat constructor; simpl; tauto|].
    intros x [<-|[]]. exact Hq. }
  destruct (uniqueMatches _) as [|p u] eqn:E3; [discriminate|]. intros [= <-].
  split; [discriminate|]. rewrite <- E3. split; [apply uniqueMatches_ids_NoDup|].
  intros x Hx. apply uniqueMatches_In, category_matches_In in Hx. tauto.
Qed.

Lemma speechErrorMessage_cons c m :
  speechErrorMessage (Some (c :: m)) =
  if includes (c :: m) (js "7") || includes (c :: m) (js "No match") then MSG_NOT_HEARD
  else c :: m.
Proof. reflexivity. Qed.

(** X4: after a speech-engine error, listening stops, the stored result is
    kept, and the error text is never empty (so it is always displayed):
    a message mentioning "7" or "No match" becomes 'לא שמעתי, נסה שוב', a
    missing or empty message becomes 'שגיאה לא ידועה', and any other
    message is shown as it is. *)
Theorem onSpeechError_message m prev :
  isListening (onSpeechError m prev) = false /\
  foundProduct (onSpeechError m prev) = foundProduct prev /\
  error (onSpeechError m prev) <> [] /\
  (forall msg, m = Some msg ->
     (includes msg (js "7") || includes msg (js "No match")) = true ->
     error (onSpeechError m prev) = MSG_NOT_HEARD) /\
  ((m = None \/ m = Some []) -> error (onSpeechError m prev) = MSG_UNKNOWN_ERROR) /\
  (forall msg, m = Some msg -> msg <> [] ->
     includes msg (js "7") = false -> includes msg (js "No match") = false ->
     error (onSpeechError m prev) = msg).
Proof.
  unfold onSpeechError. simpl. split; [reflexivity|]. split; [reflexivity|].
  split; [|split; [|split]].
  - destruct m as [[|c m]|]; try discriminate. rewrite speechErrorMessage_cons.
    destruct (_ || _); discriminate.
  - intros msg -> H. destruct msg as [|c msg]; [discriminate|].
    rewrite speechErrorMessage_cons, H. reflexivity.
  - intros [->| ->]; reflexivity.
  - intros msg -> Hne H7 Hnm. destruct msg as [|c msg]; [congruence|].
    rewrite speechErrorMessage_cons, H7, Hnm. reflexivity.
Qed.

(** X5: a final result stops listening, clears the partial transcript and
    keeps the heard transcript ([e.value?.[0]], or [""] when there is
    none).  The stored result is ['not_found'] exactly when the matcher
    returns [null], and then the announcement is 'מוצר לא נמצא'; a found
    result is announced otherwise.  A results event without a transcript
    stores ['not_found']. *)
Theorem onSpeechResults_state productData v prev :
  isListening (onSpeechResults productData v prev) = false /\
  partialTranscript (onSpeechResults productData v prev) = [] /\
  finalTranscript (onSpeechResults productData v prev) = first_value v /\
  error (onSpeechResults productData v prev) = error prev /\
  (foundProduct (onSpeechResults productData v prev) = FoundNotFound <->
   findProduct productData (first_value v) = None) /\
  (resultAnnouncement (findProduct productData (first_value v)) = MSG_PRODUCT_NOT_FOUND <->
   findProduct productData (first_value v) = None) /\
  (first_value v = [] -> foundProduct (onSpeechResults productData v prev) = FoundNotFound).
Proof.
  unfold onSpeechResults. simpl.
  split; [reflexivity|]. split; [reflexivity|]. split; [reflexivity|].
  split; [reflexivity|].
  split; [|split].
  - unfold found_of. destruct (findProduct _ _); split; congruence.
  - destruct (findProduct _ _) as [l|] eqn:E; [|split; reflexivity].
    apply findProduct_some_props in E as [Hne _]. split; [|discriminate].
    destruct l as [|p [|q l]]; [congruence| |]; simpl; discriminate.
  - intros ->. reflexivity.
Qed.

Lemma step_result_ok productData s e :
  result_ok productData (foundProduct s) ->
  result_ok productData (foundProduct (step productData s e)).
Proof.
  intros H. destruct e; simpl; auto.
  - unfold found_of. destruct (findProduct _ _) eqn:E; simpl; [|exact I].
    apply findProduct_some_props in E. exact E.
  - unfold toggleListening.
    destruct (isListening s), stopErr, granted, destroyErr, startErr; simpl; auto.
Qed.

Lemma run_result_ok productData events :
  result_ok productData (foundProduct (run productData events)).
Proof.
  unfold run. assert (H : result_ok productData (foundProduct initialState)) by exact I.
  revert H. generalize initialState.
  induction events as [|e events IH]; simpl; intros s H; [exact H|].
  apply IH, step_result_ok, H.
Qed.

(** X6: in every state the screen reaches from its initial state, whatever
    the engine and the button do, [foundProduct] is [null], ['not_found'],
    or a non-empty array of catalog records with distinct ids (never a
    single object and never an empty array). *)
Theorem run_foundProduct_valid productData events :
  match foundProduct (run productData events) with
  | FoundNull | FoundNotFound => True
  | FoundOne _ => False
  | FoundMany ps => ps <> [] /\ NoDup (map id ps) /\ incl ps productData
  end.
Proof. exact (run_result_ok productData events). Qed.

(** X7: when a reachable state shows a list of products, the list is not
    empty, the header 'נמצא מוצר אחד:' is shown exactly when it holds one
    product, and no product appears twice. *)
Theorem render_header_count productData events h ps :
  renderProductResult (run productData events) = RenderList h ps ->
  ps <> [] /\ NoDup (map id ps) /\ (h = MSG_ONE_PRODUCT <-> length ps = 1%nat).
Proof.
  pose proof (run_result_ok productData events) as H.
  unfold renderProductResult.
  destruct (foundProduct (run productData events)) as [| |p|qs]; try discriminate.
  - destruct H.
  - intros [= <- <-]. destruct H as [Hne [Hnd _]]. split; [exact Hne|]. split; [exact Hnd|].
    destruct qs as [|p [|q qs]]; [congruence|simpl; tauto|].
    simpl. split; [discriminate|lia].
Qed.

Lemma render_header_count_witness :
  renderProductResult (run onion_family session_onion) =
    RenderList (MSG_FOUND_MANY ++ nat_to_jsstring 2 ++ MSG_RESULTS) [red_onion; onion_rings] /\
  ([red_onion; onion_rings] <> [] /\ NoDup (map id [red_onion; onion_rings]) /\
   (MSG_FOUND_MANY ++ nat_to_jsstring 2 ++ MSG_RESULTS = MSG_ONE_PRODUCT <->
    length [red_onion; onion_rings] = 1%nat)).
Proof.
  assert (H : renderProductResult (run onion_family session_onion) =
    RenderList (MSG_FOUND_MANY ++ nat_to_jsstring 2 ++ MSG_RESULTS) [red_onion; onion_rings])
    by (vm_compute; reflexivity).
  split; [exact H|]. exact (render_header_count _ _ _ _ H).
Defined.

(** X8: until the engine delivers a final result, the screen shows no
    product result: from the initial state, any sequence of events without
    a results event leaves [foundProduct] at [null]. *)
Theorem no_result_before_final productData events :
  Forall (fun e => is_results_event e = false) events ->
  renderProductResult (run productData events) = RenderNothing.
Proof.
  unfold run, renderProductResult.
  assert (H0 : foundProduct initialState = FoundNull) by reflexivity.
  revert H0. generalize initialState.
  induction events as [|e events IH]; simpl; intros s H0 Hf.
  - rewrite H0. reflexivity.
  - inversion Hf as [|? ? He Hf']; subst. apply IH; [|exact Hf'].
    destruct e; try discriminate; simpl; try exact H0.
    unfold toggleListening.
    destruct (isListening s), stopErr, granted, destroyErr, startErr; simpl; auto.
Qed.

Lemma no_result_before_final_witness :
  renderProductResult
    (run onion_catalog [EvToggle None true None None; EvSpeechStart;
                        EvSpeechPartialResults (Some [js "oni"]); EvSpeechEnd])
  = RenderNothing.
Proof.
  apply no_result_before_final. repeat constructor.
Defined.
